(** * autofile.js: a file bound to a reactive object

    Shallow embedding of [src/index.ts] (class [ReactiveFile]) and the
    properties of its codec registry, of its constructors and of its
    save paths. *)

From Stdlib Require Import ZArith String Ascii DecimalString.
From stdpp Require Import base option list gmap strings.

Open Scope string_scope.
Open Scope list_scope.

(** ** Thrown values and completions *)

(** The values the program can see thrown.  [TypeError] is what the
    runtime raises on a property read of [undefined] or on a call of a
    non-function; [Error_] is [new Error(message)]; [SystemError] is an
    error of the [fs] module with its [code]. *)
Inductive JsError : Type :=
  | TypeError (message : string)
  | Error_ (message : string)
  | SystemError (code : string) (target : string).

(** A call either returns or throws. *)
Inductive Completion (A : Type) : Type :=
  | Normal (a : A)
  | Throw (e : JsError).
Arguments Normal {A} a.
Arguments Throw {A} e.

(** Message of the [TypeError] of [undefined[i]]. *)
Definition cannot_read (i : string) : string :=
  "Cannot read property '" +:+ i +:+ "' of undefined".

(** ** Objects *)

(** [Obj]: the plain data a codec produces and consumes.  An object keeps
    its properties in insertion order; an array is the object of its
    indices. *)
#[warnings="-register-all"]
Inductive Value : Type :=
  | VNull
  | VBool (b : bool)
  | VNum (n : Z)
  | VStr (s : string)
  | VObj (props : list (string * Value)).

Abbreviation Obj := Value.

(** ** Paths: [path.parse] of Node, POSIX flavour *)

Definition is_sep (c : ascii) : bool := Ascii.eqb c "/".
Definition is_dot (c : ascii) : bool := Ascii.eqb c ".".
Definition not_sep (c : ascii) : bool := negb (is_sep c).
Definition not_dot (c : ascii) : bool := negb (is_dot c).

Fixpoint take_while {A} (f : A → bool) (l : list A) : list A :=
  match l with
  | [] => []
  | x :: r => if f x then x :: take_while f r else []
  end.

Fixpoint drop_while {A} (f : A → bool) (l : list A) : list A :=
  match l with
  | [] => []
  | x :: r => if f x then drop_while f r else l
  end.

Record ParsedPath : Type := {
  root : string;
  dir : string;
  base : string;
  ext : string
}.

(** The extension of a last segment, given reversed as it is scanned: it
    starts at the last dot, unless that dot is the first character of
    the segment or the segment is [..]. *)
Definition ext_of (rbase : list ascii) : list ascii :=
  let rext := take_while not_dot rbase in
  match drop_while not_dot rbase, rext with
  | [], _ => []
  | [_], _ => []
  | [_; c], [] => if is_dot c then [] else ["."%char]
  | _ :: _, _ => "."%char :: rev rext
  end.

(** [path.parse] scans the path from its end, a leading separator being
    the root and left out: trailing separators are skipped, the last
    segment is [base], what precedes its separator is [dir].  The lists
    are the scanned characters in scan order. *)
Definition parsePath (p : string) : ParsedPath :=
  let cs := list_ascii_of_string p in
  let absolute := match cs with c :: _ => is_sep c | [] => false end in
  let scanned := rev (if absolute then tail cs else cs) in
  let trimmed := drop_while is_sep scanned in
  let rbase := take_while not_sep trimmed in
  let before := drop_while not_sep trimmed in
  let rt := if absolute then ["/"%char] else [] in
  {| root := string_of_list_ascii rt;
     dir := string_of_list_ascii
              match before with
              | [] => rt
              | _ :: rdir => rt ++ rev rdir
              end;
     base := string_of_list_ascii (rev rbase);
     ext := string_of_list_ascii (ext_of rbase) |}.

(** [s.slice(1)] *)
Definition slice1 (s : string) : string :=
  match s with
  | EmptyString => EmptyString
  | String _ r => r
  end.

(** [a || b] on strings that may be [null] or [undefined]: the empty
    string is falsy as well. *)
Definition str_or (a b : option string) : option string :=
  match a with
  | Some s => if decide (s = "") then b else Some s
  | None => b
  end.

(** [b] as a condition, for an optional boolean. *)
Definition truthy (b : option bool) : bool := default false b.

(** ** The codec registry: [ReactiveFile.types] *)

Definition ParseFunction : Type := string → Completion Obj.
Definition SerializeFunction : Type := Obj → Completion string.

(** A registry entry is the array [[parse, serialize]]; a property can
    also hold [undefined] (here [None]), which is what [assignType]
    stores when it copies from a missing key. *)
Definition Entry : Type := option (ParseFunction * SerializeFunction).

Abbreviation Types := (gmap string Entry).

(** [types[k]]: [undefined] for a missing key.  The keys are the own
    properties of the object; the properties it inherits from
    [Object.prototype] are no arrays and hold nothing at index [0] or
    [1], so that for [parse] and [serialize] they behave as [undefined]
    does: the call throws a [TypeError]. *)
Definition prop (tbl : Types) (k : string) : Entry :=
  default None (tbl !! k).

Definition parse (tbl : Types) (str : string) (type : string) : Completion Obj :=
  match prop tbl type with
  | Some (p, _) => p str
  | None => Throw (TypeError (cannot_read "0"))
  end.

Definition serialize (tbl : Types) (obj : Obj) (type : string) : Completion string :=
  match prop tbl type with
  | Some (_, s) => s obj
  | None => Throw (TypeError (cannot_read "1"))
  end.

(** ** The file system *)

(** The disk holds the regular files with their text and the directories
    that have been created.  The text is kept decoded: the [encoding]
    option, which the program hands to every read and write, has no
    part in it. *)
Record Disk : Type := {
  files : gmap string string;
  dirs : gset string
}.

Module Fs.

(** [fs.readFileSync], [fs.promises.readFile] *)
Definition readFile (p : string) (d : Disk) : Completion string :=
  match files d !! p with
  | Some data => Normal data
  | None => Throw (SystemError "ENOENT" p)
  end.

(** [fs.mkdirSync], [fs.promises.mkdir] with [recursive: true]: an
    existing directory is no error; the empty path names nothing, and
    a regular file is in the way. *)
Definition mkdir (p : string) (d : Disk) : Completion Disk :=
  if decide (p = "") then Throw (SystemError "ENOENT" p)
  else if decide (is_Some (files d !! p)) then Throw (SystemError "EEXIST" p)
  else Normal {| files := files d; dirs := {[p]} ∪ dirs d |}.

(** [fs.writeFileSync]: the whole file is replaced. *)
Definition writeFile (p data : string) (d : Disk) : Completion Disk :=
  if decide (p = "") then Throw (SystemError "ENOENT" p)
  else if decide (p ∈ dirs d) then Throw (SystemError "EISDIR" p)
  else Normal {| files := <[p := data]> (files d); dirs := dirs d |}.

End Fs.

(** ** Promises of [save] and the state of the process *)

(** What [save] has left to do after its [await]: the directory whose
    creation it awaits, and the write of the text it serialized before. *)
Record Task : Type := {
  t_dir : string;
  t_path : string;
  t_data : string
}.

Inductive Promise : Type :=
  | Pending (t : Task)
  | Fulfilled
  | Rejected (e : JsError).

(** The state shared by all calls: the disk, the static [types] table and
    the promises [save] has returned so far, oldest first. *)
Record World : Type := {
  disk : Disk;
  types : Types;
  promises : list Promise
}.

Definition set_disk (d : Disk) (w : World) : World :=
  {| disk := d; types := types w; promises := promises w |}.
Definition set_types (t : Types) (w : World) : World :=
  {| disk := disk w; types := t; promises := promises w |}.
Definition set_promises (ps : list Promise) (w : World) : World :=
  {| disk := disk w; types := types w; promises := ps |}.

(** Calls that read and change the world and may throw. *)
Definition M (A : Type) : Type := World → Completion A * World.

#[global] Instance M_ret : MRet M := fun A a w => (Normal a, w).
#[global] Instance M_bind : MBind M := fun A B k m w =>
  match m w with
  | (Normal a, w') => k a w'
  | (Throw e, w') => (Throw e, w')
  end.

Definition throw {A} (e : JsError) : M A := fun w => (Throw e, w).
Definition modify (f : World → World) : M unit := fun w => (Normal tt, f w).
Definition on_disk {A} (f : Disk → Completion A) : M A := fun w => (f (disk w), w).
Definition on_types {A} (f : Types → Completion A) : M A := fun w => (f (types w), w).

(** ** The static methods on the registry *)

(** [registerType(type, parse, serialize)] *)
Definition registerType (type : string) (parse : ParseFunction)
    (serialize : SerializeFunction) : M unit :=
  modify (fun w => set_types (<[type := Some (parse, serialize)]> (types w)) w).

(** [assignType(type, from)] *)
Definition assignType (type : string) (from : string) : M unit :=
  modify (fun w => set_types (<[type := prop (types w) from]> (types w)) w).

(** [registerTypes(types, parse, serialize)] *)
Fixpoint registerTypes (ts : list string) (parse : ParseFunction)
    (serialize : SerializeFunction) : M unit :=
  match ts with
  | [] => mret tt
  | type :: rest =>
    _ ← registerType type parse serialize;
    registerTypes rest parse serialize
  end.

(** [assignTypes(types, from)] *)
Fixpoint assignTypes (ts : list string) (from : string) : M unit :=
  match ts with
  | [] => mret tt
  | type :: rest => _ ← assignType type from; assignTypes rest from
  end.

(** The codecs of the libraries the module imports *)
Record Libraries : Type := {
  JSON_parse : ParseFunction;  JSON_stringify : SerializeFunction;
  yml_safeLoad : ParseFunction;  yml_safeDump : SerializeFunction;
  toml_parse : ParseFunction;  toml_stringify : SerializeFunction;
  xml_parse : ParseFunction;  xml_j2x : SerializeFunction
}.

(** The registrations made when the module is loaded *)
Definition module_init (lib : Libraries) : M unit :=
  _ ← registerType "json" (JSON_parse lib) (JSON_stringify lib);
  _ ← registerTypes ["yml"; "yaml"] (yml_safeLoad lib) (yml_safeDump lib);
  _ ← registerType "toml" (toml_parse lib) (toml_stringify lib);
  registerTypes ["xml"; "xaml"] (xml_parse lib) (xml_j2x lib).

(** ** The class [ReactiveFile] *)

Record LoadOptions : Type := {
  encoding : option string;
  asyncSave : option bool;
  saveTo : option string;
  deep : option bool;
  reactive : option bool;
  type : option string
}.

(** [{}], the default of the options parameter *)
Definition no_options : LoadOptions :=
  {| encoding := None; asyncSave := None; saveTo := None;
     deep := None; reactive := None; type := None |}.

(** The fields of an instance.  [val] stands for the object both [val]
    and [$] refer to, which is the object the caller mutates; [observer]
    is the observation [observeData] has installed on that object (with
    its [deep] flag), whose callback is the [notify] of this instance. *)
Record ReactiveFile : Type := {
  val : Obj;
  path : option string;
  opts : LoadOptions;
  observer : option bool
}.

Definition set_val (v : Obj) (this : ReactiveFile) : ReactiveFile :=
  {| val := v; path := path this; opts := opts this; observer := observer this |}.

(** A property key made of an optional string *)
Definition key (k : option string) : string := default "undefined" k.

(** What [parsePath(this.path)] throws when [path] is [undefined] *)
Definition path_not_string : JsError :=
  TypeError "The 'path' argument must be of type string. Received undefined".

(** [saveSync()] *)
Definition saveSync (this : ReactiveFile) : M unit := fun w =>
  match serialize (types w) (val this) (key (type (opts this))) with
  | Throw e => (Throw e, w)
  | Normal serialized =>
    match path this with
    | None => (Throw path_not_string, w)
    | Some p =>
      match Fs.mkdir (dir (parsePath p)) (disk w) with
      | Throw e => (Throw e, w)
      | Normal d1 =>
        match Fs.writeFile p serialized d1 with
        | Throw e => (Throw e, set_disk d1 w)
        | Normal d2 => (Normal tt, set_disk d2 w)
        end
      end
    end
  end.

(** [save()], up to its [await]: the promise it returns is rejected if
    serializing throws, and is pending on the creation of the directory
    otherwise. *)
Definition save_promise (this : ReactiveFile) (tbl : Types) : Promise :=
  match serialize tbl (val this) (key (type (opts this))) with
  | Throw e => Rejected e
  | Normal serialized =>
    match path this with
    | None => Rejected path_not_string
    | Some p => Pending {| t_dir := dir (parsePath p); t_path := p; t_data := serialized |}
    end
  end.

(** [save()] returns at once; its result here is the index of its
    promise. *)
Definition save (this : ReactiveFile) : M nat := fun w =>
  (Normal (length (promises w)),
   set_promises (promises w ++ [save_promise this (types w)]) w).

(** [save()], after its [await]: one turn of the event loop resumes the
    promise at index [i], once the directory is created or has failed to
    be, and runs it to its end with the blocking write. *)
Definition settle (i : nat) (w : World) : World :=
  match promises w !! i with
  | Some (Pending t) =>
    match Fs.mkdir (t_dir t) (disk w) with
    | Throw e => set_promises (<[i := Rejected e]> (promises w)) w
    | Normal d1 =>
      match Fs.writeFile (t_path t) (t_data t) d1 with
      | Throw e => set_promises (<[i := Rejected e]> (promises w)) (set_disk d1 w)
      | Normal d2 => set_promises (<[i := Fulfilled]> (promises w)) (set_disk d2 w)
      end
    end
  | _ => w
  end.

(** The task of a save of [text] to [dest] *)
Definition task_of (dest text : string) : Task :=
  {| t_dir := dir (parsePath dest); t_path := dest; t_data := text |}.

(** The closure [notify] of [react] *)
Definition notify (this : ReactiveFile) : M unit :=
  if truthy (asyncSave (opts this)) then _ ← save this; mret tt
  else saveSync this.

(** Modelled from the spec: [observeData] of [./react], which is not among
    the sources.  It instruments the object in place (its result is not
    used by [react]), replaces an observation already there, and calls
    nothing back by itself. *)
Definition observeData (this : ReactiveFile) (deep_ : option bool) : ReactiveFile :=
  {| val := val this; path := path this; opts := opts this;
     observer := Some (truthy deep_) |}.

(** [react()]; the result is the instance with its object observed. *)
Definition react (this : ReactiveFile) : M ReactiveFile :=
  if negb (truthy (reactive (opts this))) then mret this
  else
    let this' := observeData this (deep (opts this)) in
    _ ← notify this'; mret this'.

(** [new ReactiveFile(val, opts, path)] *)
Definition new_ReactiveFile (v : Obj) (o : LoadOptions) (p : option string)
    : M ReactiveFile :=
  react {| val := v; path := str_or (saveTo o) p; opts := o; observer := None |}.

(** The options as the three static constructors store them, with the
    defaults of their parameter list filled in. *)
Definition with_defaults (o : LoadOptions) (ty : string) : LoadOptions :=
  {| encoding := Some (default "utf8" (encoding o));
     asyncSave := Some (default true (asyncSave o));
     saveTo := saveTo o;
     deep := Some (default true (deep o));
     reactive := Some (default true (reactive o));
     type := Some ty |}.

(** The instance a construction with observation makes *)
Definition observed_instance (v : Obj) (o : LoadOptions) (ty : string)
    (p0 : option string) : ReactiveFile :=
  {| val := v; path := str_or (saveTo o) p0; opts := with_defaults o ty;
     observer := Some (default true (deep o)) |}.

(** [type || parsePath(p).ext.slice(1)] *)
Definition type_of (ty : option string) (p : string) : string :=
  default "" (str_or ty (Some (slice1 (ext (parsePath p))))).

(** [loadSync(path, options)] *)
Definition loadSync (p : string) (o : LoadOptions) : M ReactiveFile :=
  let ty := type_of (type o) p in
  data ← on_disk (Fs.readFile p);
  parsed ← on_types (fun tbl => parse tbl data ty);
  new_ReactiveFile parsed (with_defaults o ty) (Some p).

(** [load(path, options)], awaited: the body is that of [loadSync], the
    read being awaited. *)
Definition load (p : string) (o : LoadOptions) : M ReactiveFile :=
  let ty := type_of (type o) p in
  data ← on_disk (Fs.readFile p);
  parsed ← on_types (fun tbl => parse tbl data ty);
  new_ReactiveFile parsed (with_defaults o ty) (Some p).

(** [from(obj, options)] *)
Definition from (obj : Obj) (o : LoadOptions) : M ReactiveFile :=
  match str_or (saveTo o) None with
  | None => throw (Error_ "saveTo path must be defined!")
  | Some s =>
    let ty := type_of (type o) s in
    new_ReactiveFile obj (with_defaults o ty) None
  end.

(** ** Mutations of the bound object *)

(** Properties of an object, in insertion order *)
Fixpoint get_prop (k : string) (props : list (string * Value)) : option Value :=
  match props with
  | [] => None
  | (k', v) :: rest => if decide (k' = k) then Some v else get_prop k rest
  end.

Fixpoint set_prop (k : string) (v : Value) (props : list (string * Value))
    : list (string * Value) :=
  match props with
  | [] => [(k, v)]
  | (k', v') :: rest =>
    if decide (k' = k) then (k, v) :: rest else (k', v') :: set_prop k v rest
  end.

Fixpoint delete_prop (k : string) (props : list (string * Value))
    : list (string * Value) :=
  match props with
  | [] => []
  | (k', v') :: rest =>
    if decide (k' = k) then rest else (k', v') :: delete_prop k rest
  end.

(** A mutation changes one container of the graph: [target] is the chain
    of keys that leads to it from the root (empty for the root itself),
    [change] is what happens to it. *)
Record Mutation : Type := {
  target : list string;
  change : Value → Completion Value
}.

(** [o.k = v] and [delete o.k] on the container [o] *)
Definition assign (k : string) (v : Value) (o : Value) : Completion Value :=
  match o with
  | VObj props => Normal (VObj (set_prop k v props))
  | _ => Throw (TypeError ("Cannot set property '" +:+ k +:+ "'"))
  end.

Definition remove (k : string) (o : Value) : Completion Value :=
  match o with
  | VObj props => Normal (VObj (delete_prop k props))
  | _ => Throw (TypeError ("Cannot delete property '" +:+ k +:+ "'"))
  end.

(** The graph after [f] has run on the container reached by [ks]; a chain
    that leaves the graph throws, and then nothing has changed. *)
Fixpoint update_at (ks : list string) (f : Value → Completion Value) (v : Value)
    : Completion Value :=
  match ks with
  | [] => f v
  | k :: rest =>
    match v with
    | VObj props =>
      match get_prop k props with
      | Some child =>
        match update_at rest f child with
        | Normal child' => Normal (VObj (set_prop k child' props))
        | Throw e => Throw e
        end
      | None => Throw (TypeError (cannot_read k))
      end
    | _ => Throw (TypeError (cannot_read k))
    end
  end.

(** Modelled from the spec: which mutations an observation installed by
    [observeData] (not among the sources) reports.  In deep mode all of
    them, otherwise those of the root container's own properties. *)
Definition observes (deep_ : bool) (m : Mutation) : bool :=
  deep_ || bool_decide (target m = []).

(** A document in use: the instance and the world around it. *)
Definition Session : Type := ReactiveFile * World.

(** Modelled from the spec: a mutation by the caller.  The mutation takes
    effect on the object; then, in the same call, the observer that
    [observeData] (not among the sources) has installed, if it reports
    this mutation, runs the callback, which is the [notify] of [react].
    What [notify] throws reaches the caller after the mutation. *)
Definition mutate (m : Mutation) (s : Session) : Completion unit * Session :=
  let '(this, w) := s in
  match update_at (target m) (change m) (val this) with
  | Throw e => (Throw e, s)
  | Normal v' =>
    let this' := set_val v' this in
    match observer this with
    | Some deep_ =>
      if observes deep_ m then
        let '(r, w') := notify this' w in (r, (this', w'))
      else (Normal tt, (this', w))
    | None => (Normal tt, (this', w))
    end
  end.

(** ** The specification's vocabulary *)

(** The error kinds of the specification (its section 7). *)
Inductive ErrorKind : Type :=
  | UnknownFormat
  | DecodeError
  | EncodeError
  | StorageError
  | ConfigError.

(** The thrown values by which a caller can tell a kind.  The program
    declares no error class.  Its one [throw] statement is the guard of
    [from], whose error tells a bad configuration by its message, and
    the errors of [fs] tell a storage failure by their code.  Nothing is
    thrown on purpose for a format that is not registered, and what a
    codec throws is the codec's to choose: a [TypeError] of the runtime
    tells no kind. *)
Definition signals (e : JsError) (k : ErrorKind) : bool :=
  match e, k with
  | Error_ m, ConfigError => bool_decide (m = "saveTo path must be defined!")
  | SystemError _ _, StorageError => true
  | _, _ => false
  end.

(** The format rule in the specification's words: the text after the
    last "." of the file name, lower-cased. *)
Definition lower_ascii (c : ascii) : ascii :=
  let n := nat_of_ascii c in
  if (65 <=? n)%nat && (n <=? 90)%nat then ascii_of_nat (n + 32) else c.

Definition file_name (cs : list ascii) : list ascii :=
  rev (take_while not_sep (rev cs)).

Definition after_last_dot (cs : list ascii) : list ascii :=
  match drop_while not_dot (rev cs) with
  | [] => []
  | _ :: _ => rev (take_while not_dot (rev cs))
  end.

Definition spec_format (p : string) : string :=
  string_of_list_ascii
    (map lower_ascii (after_last_dot (file_name (list_ascii_of_string p)))).


(** The instances a caller can hold after a construction with the
    options [o]: what a constructor returned, and what it has become
    after a mutation, be it one that threw in its callback. *)
Inductive bound (o : LoadOptions) : ReactiveFile → Prop :=
  | bound_load p w this w' :
      load p o w = (Normal this, w') → bound o this
  | bound_loadSync p w this w' :
      loadSync p o w = (Normal this, w') → bound o this
  | bound_from obj w this w' :
      from obj o w = (Normal this, w') → bound o this
  | bound_mutate m this w r this' w' :
      bound o this → mutate m (this, w) = (r, (this', w')) → bound o this'.

(** ** A codec to run the program on *)

Module KV.

(** A format of lines [key=number;] for flat objects of numbers. *)
Fixpoint tokens (sep : ascii) (cur : list ascii) (cs : list ascii)
    : list (list ascii) :=
  match cs with
  | [] => match cur with [] => [] | _ => [rev cur] end
  | c :: r =>
    if Ascii.eqb c sep then rev cur :: tokens sep [] r
    else tokens sep (c :: cur) r
  end.

Definition field (cs : list ascii) : option (string * Value) :=
  match tokens "=" [] cs with
  | [k; v] =>
    n ← NilZero.int_of_string (string_of_list_ascii v);
    Some (string_of_list_ascii k, VNum (Z.of_int n))
  | _ => None
  end.

Definition parse : ParseFunction := fun str =>
  match mapM field (tokens ";" [] (list_ascii_of_string str)) with
  | Some props => Normal (VObj props)
  | None => Throw (Error_ "kv: bad line")
  end.

Definition line (kv : string * Value) : option string :=
  match kv with
  | (k, VNum n) =>
    Some (k +:+ "=" +:+ NilZero.string_of_int (Z.to_int n) +:+ ";")
  | _ => None
  end.

Definition stringify : SerializeFunction := fun obj =>
  match obj with
  | VObj props =>
    match mapM line props with
    | Some ls => Normal (foldr String.append "" ls)
    | None => Throw (TypeError "kv: not a number")
    end
  | _ => Throw (TypeError "kv: not an object")
  end.

End KV.

(** A world with the codec registered under [kv] and one file. *)
Definition world0 : World :=
  (registerType "kv" KV.parse KV.stringify
     {| disk := {| files := {[ "conf/app.kv" := "count=0;" ]}; dirs := {[ "conf" ]} |};
        types := ∅;
        promises := [] |}).2.

(** The instance [load] makes of that file with the default options,
    and the world it leaves: the save of the construction is pending. *)
Definition doc0 : ReactiveFile :=
  {| val := VObj [("count", VNum 0)];
     path := Some "conf/app.kv";
     opts := with_defaults no_options "kv";
     observer := Some true |}.

Definition world1 : World :=
  set_promises [Pending (task_of "conf/app.kv" "count=0;")] world0.

(** The same file loaded with [reactive] off *)
Definition quiet_options : LoadOptions :=
  {| encoding := None; asyncSave := None; saveTo := None;
     deep := None; reactive := Some false; type := None |}.

Definition doc_quiet : ReactiveFile :=
  {| val := VObj [("count", VNum 0)];
     path := Some "conf/app.kv";
     opts := with_defaults quiet_options "kv";
     observer := None |}.

(** ** Paths made of a directory and a name *)

Definition in_dir (d : option string) (name : string) : string :=
  match d with
  | None => name
  | Some d => d +:+ "/" +:+ name
  end.

Definition contains (c : ascii) (s : string) : bool :=
  existsb (Ascii.eqb c) (list_ascii_of_string s).

(** ** More worlds to run the program on *)

(** Two saves of the same file pending at once, the older one first. *)
Definition world2 : World :=
  set_promises [Pending (task_of "conf/app.kv" "count=1;");
                Pending (task_of "conf/app.kv" "count=2;")] world0.




(** The imported codecs all played by the one codec at hand. *)
Definition kv_lib : Libraries :=
  {| JSON_parse := KV.parse; JSON_stringify := KV.stringify;
     yml_safeLoad := KV.parse; yml_safeDump := KV.stringify;
     toml_parse := KV.parse; toml_stringify := KV.stringify;
     xml_parse := KV.parse; xml_j2x := KV.stringify |}.

(** A second codec for [kv]: it writes the same lines after a header. *)
Definition headed_stringify : SerializeFunction := fun obj =>
  match KV.stringify obj with
  | Normal text => Normal ("v=2;" +:+ text)
  | Throw e => Throw e
  end.

(** * Properties *)

(** ** Runs of the definitions *)

Example parsePath_ex1 :
  parsePath "conf/settings.json"
  = {| root := ""; dir := "conf"; base := "settings.json"; ext := ".json" |}.
Proof. reflexivity. Qed.

Example parsePath_ex2 :
  parsePath "/a//b.tar.GZ/"
  = {| root := "/"; dir := "/a/"; base := "b.tar.GZ"; ext := ".GZ" |}.
Proof. reflexivity. Qed.

Example parsePath_ex3 :
  map (fun p => ext (parsePath p)) [".bashrc"; ".."; "..."; "a."; "..a"; "x/.y.z"; ""; "/"]
  = [""; ""; "."; "."; ".a"; ".z"; ""; ""].
Proof. reflexivity. Qed.

Example parsePath_ex4 :
  map (fun p => dir (parsePath p)) ["settings.json"; "/settings.json"; "a/b/c"; "a/"; "//"]
  = [""; "/"; "a/b"; ""; "/"].
Proof. reflexivity. Qed.

Example module_init_types (lib : Libraries) (d : Disk) :
  let tbl := types (module_init lib {| disk := d; types := ∅; promises := [] |}).2 in
  dom tbl = {[ "json"; "yml"; "yaml"; "toml"; "xml"; "xaml" ]}
  ∧ prop tbl "yaml" = Some (yml_safeLoad lib, yml_safeDump lib)
  ∧ prop tbl "unknownext" = None.
Proof.
  split; [|split; reflexivity].
  change (types (module_init lib {| disk := d; types := ∅; promises := [] |}).2)
    with (<["xaml" := Some (xml_parse lib, xml_j2x lib)]>
            (<["xml" := Some (xml_parse lib, xml_j2x lib)]>
               (<["toml" := Some (toml_parse lib, toml_stringify lib)]>
                  (<["yaml" := Some (yml_safeLoad lib, yml_safeDump lib)]>
                     (<["yml" := Some (yml_safeLoad lib, yml_safeDump lib)]>
                        (<["json" := Some (JSON_parse lib, JSON_stringify lib)]>
                           (∅ : Types))))))).
  rewrite !dom_insert_L, dom_empty_L. set_solver.
Qed.

Example KV_roundtrip :
  KV.parse "count=0;a=12;" = Normal (VObj [("count", VNum 0); ("a", VNum 12)])
  ∧ KV.stringify (VObj [("count", VNum 0); ("a", VNum 12)]) = Normal "count=0;a=12;".
Proof. split; vm_compute; reflexivity. Qed.

(** ** The registry *)

Lemma prop_insert (tbl : Types) (k : string) (e : Entry) :
  prop (<[k := e]> tbl) k = e.
Proof. unfold prop. by rewrite lookup_insert_eq. Qed.

Lemma prop_insert_ne (tbl : Types) (k k' : string) (e : Entry) :
  k ≠ k' → prop (<[k := e]> tbl) k' = prop tbl k'.
Proof. intros Hne. unfold prop. by rewrite lookup_insert_ne. Qed.

Lemma parse_registered (tbl : Types) (ty : string) p s (str : string) :
  prop tbl ty = Some (p, s) → parse tbl str ty = p str.
Proof. unfold parse. by intros ->. Qed.

Lemma serialize_registered (tbl : Types) (ty : string) p s (obj : Obj) :
  prop tbl ty = Some (p, s) → serialize tbl obj ty = s obj.
Proof. unfold serialize. by intros ->. Qed.



Lemma registerType_types (f : string) p s (w : World) :
  types (registerType f p s w).2 = <[f := Some (p, s)]> (types w).
Proof. reflexivity. Qed.

Lemma assignType_types (a b : string) (w : World) :
  types (assignType a b w).2 = <[a := prop (types w) b]> (types w).
Proof. reflexivity. Qed.

(** C9: after [registerType(f, p, s)], whatever [f] was registered with
    before, parsing a text under [f] is [p] of the text and serializing
    an object under [f] is [s] of the object; the call returns without
    an error also when it replaces an entry, and the last registration
    is the one in force. *)
Theorem registerType_last_wins (f : string) (p : ParseFunction)
    (s : SerializeFunction) (w : World) :
  (registerType f p s w).1 = Normal tt
  ∧ (∀ t, parse (types (registerType f p s w).2) t f = p t)
  ∧ (∀ o, serialize (types (registerType f p s w).2) o f = s o)
  ∧ ∀ p0 s0,
      let w0 := (registerType f p0 s0 w).2 in
      (registerType f p s w0).1 = Normal tt
      ∧ (∀ t, parse (types (registerType f p s w0).2) t f = p t)
      ∧ (∀ o, serialize (types (registerType f p s w0).2) o f = s o).
Proof.
  assert (Hreg : ∀ w1,
    (∀ t, parse (types (registerType f p s w1).2) t f = p t)
    ∧ (∀ o, serialize (types (registerType f p s w1).2) o f = s o)).
  { intros w1. rewrite registerType_types. split; intros x.
    - apply (parse_registered _ _ p s), prop_insert.
    - apply (serialize_registered _ _ p s), prop_insert. }
  split; [reflexivity|].
  destruct (Hreg w) as [Hp Hs]. do 2 (split; [assumption|]).
  intros p0 s0 w0. split; [reflexivity|]. apply Hreg.
Qed.

(** C10: when [b] is registered, right after [assignType(a, b)] parsing
    any text under [a] gives what parsing it under [b] gives, and the
    same for serializing; both are the functions [b] was registered
    with. *)
Theorem assignType_same_codec (a b : string) (w : World)
    (p : ParseFunction) (s : SerializeFunction) :
  prop (types w) b = Some (p, s) →
  let w' := (assignType a b w).2 in
  (∀ t, parse (types w') t a = parse (types w') t b ∧ parse (types w') t a = p t)
  ∧ (∀ o, serialize (types w') o a = serialize (types w') o b
          ∧ serialize (types w') o a = s o).
Proof.
  intros Hb w'. subst w'. rewrite assignType_types, Hb.
  assert (Ha : prop (<[a := Some (p, s)]> (types w)) a = Some (p, s))
    by apply prop_insert.
  assert (Hb' : prop (<[a := Some (p, s)]> (types w)) b = Some (p, s)).
  { destruct (decide (a = b)) as [->|Hne]; [apply prop_insert|].
    by rewrite prop_insert_ne. }
  split; intros x.
  - by rewrite (parse_registered _ a p s), (parse_registered _ b p s).
  - by rewrite (serialize_registered _ a p s), (serialize_registered _ b p s).
Qed.

Lemma assignType_same_codec_witness :
  prop (types world0) "kv" = Some (KV.parse, KV.stringify)
  ∧ parse (types (assignType "ini" "kv" world0).2) "a=1;" "ini"
    = parse (types (assignType "ini" "kv" world0).2) "a=1;" "kv"
  ∧ parse (types (assignType "ini" "kv" world0).2) "a=1;" "ini"
    = Normal (VObj [("a", VNum 1)]).
Proof.
  assert (H : prop (types world0) "kv" = Some (KV.parse, KV.stringify))
    by reflexivity.
  split; [exact H|].
  destruct (assignType_same_codec "ini" "kv" world0 _ _ H) as [Hp _].
  destruct (Hp "a=1;") as [H1 H2].
  split; [exact H1|]. rewrite H2. vm_compute. reflexivity.
Defined.




(** ** Failures *)

(** C5: [from] needs [saveTo] among its options.  When it is absent (or
    empty) the call throws the error of its guard, which tells a bad
    configuration; no instance is returned and the world is as it was. *)
Theorem from_requires_saveTo (obj : Obj) (o : LoadOptions) (w : World) :
  saveTo o = None ∨ saveTo o = Some "" →
  ∃ e, from obj o w = (Throw e, w)
       ∧ e = Error_ "saveTo path must be defined!"
       ∧ signals e ConfigError = true.
Proof.
  intros Hs. exists (Error_ "saveTo path must be defined!").
  split; [|split; reflexivity].
  unfold from. by destruct Hs as [-> | ->].
Qed.

Lemma from_requires_saveTo_witness :
  ∃ e, from (VObj [("count", VNum 0)]) no_options world0 = (Throw e, world0)
       ∧ e = Error_ "saveTo path must be defined!"
       ∧ signals e ConfigError = true.
Proof.
  apply (from_requires_saveTo (VObj [("count", VNum 0)]) no_options world0).
  left. reflexivity.
Defined.

Lemma load_unfold (p : string) (o : LoadOptions) (w : World) :
  load p o w
  = match Fs.readFile p (disk w) with
    | Throw e => (Throw e, w)
    | Normal data =>
      match parse (types w) data (type_of (type o) p) with
      | Throw e => (Throw e, w)
      | Normal parsed =>
        new_ReactiveFile parsed (with_defaults o (type_of (type o) p)) (Some p) w
      end
    end.
Proof.
  unfold load, mbind, M_bind, on_disk, on_types.
  destruct (Fs.readFile p (disk w)); [|reflexivity].
  by destruct (parse (types w) a (type_of (type o) p)).
Qed.

Lemma load_loadSync (p : string) (o : LoadOptions) : load p o = loadSync p o.
Proof. reflexivity. Qed.

Lemma from_unfold (obj : Obj) (o : LoadOptions) (s : string) :
  str_or (saveTo o) None = Some s →
  from obj o = new_ReactiveFile obj (with_defaults o (type_of (type o) s)) None.
Proof. unfold from. by intros ->. Qed.

Lemma settle_not_pending (i : nat) (w : World) :
  (∀ t, promises w !! i ≠ Some (Pending t)) → settle i w = w.
Proof.
  intros H. unfold settle.
  destruct (promises w !! i) as [[t| |e]|] eqn:E; try reflexivity.
  by destruct (H t).
Qed.





(** ** The format inferred from a path *)

Lemma list_ascii_of_string_app (a b : string) :
  list_ascii_of_string (a +:+ b) = list_ascii_of_string a ++ list_ascii_of_string b.
Proof.
  induction a as [|c a IH]; [reflexivity|].
  simpl. by rewrite IH.
Qed.

Lemma take_while_all {A} (f : A → bool) (l r : list A) :
  forallb f l = true →
  match r with [] => True | x :: _ => f x = false end →
  take_while f (l ++ r) = l ∧ drop_while f (l ++ r) = r.
Proof.
  intros Hl Hr. induction l as [|x l IH]; simpl in *.
  - destruct r as [|y r]; [done|]. simpl. by rewrite Hr.
  - apply andb_prop in Hl as [-> Hl]. destruct (IH Hl) as [-> ->]. done.
Qed.

Lemma forallb_rev {A} (f : A → bool) (l : list A) :
  forallb f (rev l) = forallb f l.
Proof.
  induction l as [|x l IH]; [reflexivity|].
  cbn. rewrite forallb_app, IH. cbn. rewrite andb_true_r. apply andb_comm.
Qed.

Lemma no_char_forallb (c : ascii) (s : string) :
  contains c s = false →
  forallb (fun x => negb (Ascii.eqb x c)) (list_ascii_of_string s) = true.
Proof.
  unfold contains. induction (list_ascii_of_string s) as [|x l IH]; [done|].
  cbn. intros H. apply orb_false_elim in H as [Hx Hl].
  rewrite Ascii.eqb_sym, Hx. cbn. by apply IH.
Qed.

(** The last segment of a path that ends in a name: what [parsePath]
    scans as [base], reversed. *)
Lemma scan_base (pre b : list ascii) :
  b ≠ [] → forallb not_sep b = true →
  pre = [] ∨ (∃ x, pre = x ++ ["/"%char]) →
  ∃ rest,
    let cs := pre ++ b in
    let absolute := match cs with c :: _ => is_sep c | [] => false end in
    drop_while is_sep (rev (if absolute then tail cs else cs)) = rev b ++ rest
    ∧ take_while not_sep (rev b ++ rest) = rev b.
Proof.
  intros Hb Hsep Hpre.
  assert (Hscan : ∃ pre2,
    (let cs := pre ++ b in
     if match cs with c :: _ => is_sep c | [] => false end then tail cs else cs)
    = pre2 ++ b ∧ (pre2 = [] ∨ ∃ x, pre2 = x ++ ["/"%char])).
  { destruct Hpre as [->|[x ->]].
    - exists []. split; [|by left]. cbn.
      destruct b as [|c b]; [done|]. cbn in Hsep.
      apply andb_prop in Hsep as [Hc _]. unfold not_sep in Hc.
      apply negb_true_iff in Hc. by rewrite Hc.
    - destruct x as [|c x].
      + exists []. split; [|by left]. reflexivity.
      + cbn. destruct (is_sep c).
        * exists (x ++ ["/"%char]). split; [reflexivity|]. right. by exists x.
        * exists (c :: x ++ ["/"%char]). split; [reflexivity|]. right. by exists (c :: x). }
  destruct Hscan as (pre2 & Heq & Hpre2). cbn zeta in Heq |- *.
  exists (rev pre2). rewrite Heq, rev_app_distr.
  assert (Hrb : ∃ c r, rev b = c :: r ∧ is_sep c = false).
  { destruct (rev b) as [|c r] eqn:E.
    - apply (f_equal (@rev ascii)) in E. rewrite rev_involutive in E. done.
    - exists c, r. split; [done|].
      rewrite <- forallb_rev, E in Hsep. cbn in Hsep.
      apply andb_prop in Hsep as [Hc _]. by apply negb_true_iff in Hc. }
  destruct Hrb as (c & r & Hrb & Hc).
  split.
  - rewrite Hrb. cbn. by rewrite Hc.
  - apply take_while_all; [by rewrite forallb_rev|].
    destruct Hpre2 as [->|[x ->]]; [done|].
    rewrite rev_app_distr. reflexivity.
Qed.

Lemma parsePath_ext (p : string) (pre b : list ascii) :
  list_ascii_of_string p = pre ++ b →
  b ≠ [] → forallb not_sep b = true →
  pre = [] ∨ (∃ x, pre = x ++ ["/"%char]) →
  ext (parsePath p) = string_of_list_ascii (ext_of (rev b)).
Proof.
  intros Hp Hb Hsep Hpre.
  destruct (scan_base pre b Hb Hsep Hpre) as (rest & Hdrop & Htake).
  unfold parsePath. cbn. rewrite Hp.
  cbn zeta in Hdrop. rewrite Hdrop, Htake. reflexivity.
Qed.

Lemma in_dir_chars (d : option string) (name : string) :
  ∃ pre, list_ascii_of_string (in_dir d name) = pre ++ list_ascii_of_string name
         ∧ (pre = [] ∨ ∃ x, pre = x ++ ["/"%char]).
Proof.
  destruct d as [d|]; cbn.
  - exists (list_ascii_of_string d ++ ["/"%char]). split; [|right; by eexists].
    rewrite list_ascii_of_string_app. cbn. by rewrite <- app_assoc.
  - exists []. split; [reflexivity|by left].
Qed.

Lemma chars_nonempty (s : string) : s ≠ "" → list_ascii_of_string s ≠ [].
Proof. destruct s; [done|]. discriminate. Qed.

Lemma type_of_inferred (ty : option string) (p : string) :
  ty = None ∨ ty = Some "" → type_of ty p = slice1 (ext (parsePath p)).
Proof. by intros [-> | ->]. Qed.

(** The extension of a base [stem.e] whose [e] has no dot. *)
Lemma ext_of_stem (rstem re : list ascii) :
  forallb not_dot re = true →
  ext_of (re ++ "."%char :: rstem)
  = match rstem, re with
    | [], _ => []
    | [c], [] => if is_dot c then [] else ["."%char]
    | _, _ => "."%char :: rev re
    end.
Proof.
  intros Hre. unfold ext_of.
  destruct (take_while_all not_dot re ("."%char :: rstem) Hre eq_refl) as [-> ->].
  by destruct rstem as [|c [|c' r]], re.
Qed.

Lemma ext_of_no_dot (rb : list ascii) :
  forallb not_dot rb = true → ext_of rb = [].
Proof.
  intros Hrb. unfold ext_of.
  destruct (take_while_all not_dot rb [] Hrb I) as [H1 H2].
  rewrite app_nil_r in H1, H2. by rewrite H2.
Qed.

(** C6, as the specification states it, fails: the case of the extension
    is kept, and a name that starts with its only dot has no extension. *)
Lemma inferred_type_counterexample :
  type_of None "conf/Settings.JSON" = "JSON"
  ∧ spec_format "conf/Settings.JSON" = "json"
  ∧ type_of None "conf/.env" = ""
  ∧ spec_format "conf/.env" = "env"
  ∧ ¬ ∀ p, type_of None p = spec_format p.
Proof.
  do 4 (split; [reflexivity|]).
  intros H. specialize (H "conf/Settings.JSON"). discriminate H.
Qed.

(** C6, amended: when no format is given ([type] absent or empty), the
    format is the extension [path.parse] finds in the path, without its
    dot and with its case as written.  For a last segment [stem.e] with a
    non-empty [stem] and no dot in [e] it is [e]; it is empty for a last
    segment [.e] and for one without a dot. *)
Theorem inferred_type_is_extension (d : option string) (stem e : string)
    (ty : option string) :
  ty = None ∨ ty = Some "" →
  contains "/" stem = false → contains "/" e = false → contains "." e = false →
  (stem ≠ "" → type_of ty (in_dir d (stem +:+ "." +:+ e)) = e)
  ∧ type_of ty (in_dir d ("." +:+ e)) = ""
  ∧ (e ≠ "" → type_of ty (in_dir d e) = "").
Proof.
  intros Hty Hstem Hsep Hdot.
  pose proof (no_char_forallb _ _ Hstem) as Fstem.
  pose proof (no_char_forallb _ _ Hsep) as Fsep.
  pose proof (no_char_forallb _ _ Hdot) as Fdot.
  set (ce := list_ascii_of_string e) in *.
  set (cs := list_ascii_of_string stem) in *.
  assert (Hdotted : ∀ l, forallb not_sep l = true →
            forallb not_sep (l ++ "."%char :: ce) = true).
  { intros l Hl. rewrite forallb_app, Hl. cbn. exact Fsep. }
  assert (Hrev : ∀ l, rev (l ++ "."%char :: ce) = rev ce ++ "."%char :: rev l).
  { intros l. rewrite rev_app_distr. cbn. by rewrite <- app_assoc. }
  assert (Hback : string_of_list_ascii (rev (rev ce)) = e).
  { rewrite rev_involutive. apply string_of_list_ascii_of_string. }
  split; [|split].
  - intros Hne. rewrite type_of_inferred by done.
    destruct (in_dir_chars d (stem +:+ "." +:+ e)) as (pre & Hp & Hpre).
    rewrite !list_ascii_of_string_app in Hp. cbn in Hp. fold ce cs in Hp.
    rewrite (parsePath_ext _ pre (cs ++ "."%char :: ce) Hp); [|by destruct cs|by apply Hdotted|done].
    rewrite Hrev, ext_of_stem by (by rewrite forallb_rev).
    assert (rev cs ≠ []) as Hrs.
    { intros E. apply (f_equal (@rev ascii)) in E. rewrite rev_involutive in E.
      by apply (chars_nonempty stem Hne). }
    destruct (rev cs) as [|c [|c' r]] eqn:Ers; [done| |].
    + destruct (rev ce) as [|x l] eqn:Erce.
      * assert (e = "") as ->.
        { rewrite <- Hback. reflexivity. }
        by destruct (is_dot c).
      * cbn. exact Hback.
    + destruct (rev ce); cbn; exact Hback.
  - rewrite type_of_inferred by done.
    destruct (in_dir_chars d ("." +:+ e)) as (pre & Hp & Hpre).
    rewrite list_ascii_of_string_app in Hp. cbn in Hp. fold ce in Hp.
    rewrite (parsePath_ext _ pre ([] ++ "."%char :: ce) Hp); [|done|by apply Hdotted|done].
    rewrite Hrev, ext_of_stem by (by rewrite forallb_rev). reflexivity.
  - intros Hne. rewrite type_of_inferred by done.
    destruct (in_dir_chars d e) as (pre & Hp & Hpre). fold ce in Hp.
    rewrite (parsePath_ext _ pre ce Hp); [|by apply chars_nonempty|done|done].
    rewrite ext_of_no_dot by (by rewrite forallb_rev). reflexivity.
Qed.

Lemma inferred_type_is_extension_witness :
  type_of None "conf/Settings.tar.GZ" = "GZ"
  ∧ type_of None "conf/.GZ" = ""
  ∧ type_of None "conf/GZ" = "".
Proof.
  destruct (inferred_type_is_extension (Some "conf") "Settings.tar" "GZ" None
              (or_introl eq_refl) eq_refl eq_refl eq_refl) as (H1 & H2 & H3).
  split; [apply H1; discriminate|]. split; [exact H2|apply H3; discriminate].
Defined.

(** ** Saving *)

Lemma writeFile_lookup (p data : string) (d d2 : Disk) :
  Fs.writeFile p data d = Normal d2 → files d2 !! p = Some data.
Proof.
  unfold Fs.writeFile. repeat case_decide; try discriminate.
  intros [= <-]. cbn. apply lookup_insert_eq.
Qed.

Lemma saveSync_writes (this : ReactiveFile) (w : World) (dest text : string)
    pf sf (d1 d2 : Disk) :
  path this = Some dest →
  prop (types w) (key (type (opts this))) = Some (pf, sf) →
  sf (val this) = Normal text →
  Fs.mkdir (dir (parsePath dest)) (disk w) = Normal d1 →
  Fs.writeFile dest text d1 = Normal d2 →
  saveSync this w = (Normal tt, set_disk d2 w).
Proof.
  intros Hp Hc Hs Hm Hw. unfold saveSync.
  by rewrite (serialize_registered _ _ pf sf), Hs, Hp, Hm, Hw.
Qed.

Lemma save_promise_pending (this : ReactiveFile) (tbl : Types) (dest text : string)
    pf sf :
  path this = Some dest →
  prop tbl (key (type (opts this))) = Some (pf, sf) →
  sf (val this) = Normal text →
  save_promise this tbl = Pending (task_of dest text).
Proof.
  intros Hp Hc Hs. unfold save_promise.
  by rewrite (serialize_registered _ _ pf sf), Hs, Hp.
Qed.


(** A pending save that is resumed is settled, and if it is fulfilled
    the file holds its text. *)
Lemma settle_fulfilled (i : nat) (w : World) (t : Task) :
  promises w !! i = Some (Pending t) →
  (promises (settle i w) !! i = Some Fulfilled
   ∨ ∃ e, promises (settle i w) !! i = Some (Rejected e))
  ∧ (promises (settle i w) !! i = Some Fulfilled →
     files (disk (settle i w)) !! t_path t = Some (t_data t)).
Proof.
  intros Hi. pose proof (lookup_lt_Some _ _ _ Hi) as Hlt.
  unfold settle. rewrite Hi.
  destruct (Fs.mkdir (t_dir t) (disk w)) as [d1|e] eqn:Hm; cbn.
  - destruct (Fs.writeFile (t_path t) (t_data t) d1) as [d2|e] eqn:Hw; cbn;
      rewrite list_lookup_insert_eq by done.
    + split; [by left|]. intros _. by apply writeFile_lookup in Hw.
    + split; [right; by eexists|]. discriminate.
  - rewrite list_lookup_insert_eq by done.
    split; [right; by eexists|]. discriminate.
Qed.

(** ** Construction *)

Lemma construct_reactive (v : Obj) (o : LoadOptions) (ty : string)
    (p0 : option string) (w : World) :
  default true (reactive o) = true →
  new_ReactiveFile v (with_defaults o ty) p0 w
  = let this := observed_instance v o ty p0 in
    if default true (asyncSave o) then
      (Normal this, set_promises (promises w ++ [save_promise this (types w)]) w)
    else
      match saveSync this w with
      | (Normal _, w') => (Normal this, w')
      | (Throw e, w') => (Throw e, w')
      end.
Proof.
  intros Hr. unfold new_ReactiveFile, react. cbn. rewrite Hr. cbn.
  unfold notify, mbind, M_bind. cbn.
  destruct (default true (asyncSave o)); cbn; [reflexivity|].
  unfold observeData, observed_instance. cbn.
  by destruct (saveSync _ w) as [[[]|e] w'].
Qed.

Lemma construct_silent (v : Obj) (o : LoadOptions) (ty : string)
    (p0 : option string) (w : World) :
  default true (reactive o) = false →
  new_ReactiveFile v (with_defaults o ty) p0 w
  = (Normal {| val := v; path := str_or (saveTo o) p0;
               opts := with_defaults o ty; observer := None |}, w).
Proof.
  intros Hr. unfold new_ReactiveFile, react. cbn. by rewrite Hr.
Qed.

Lemma construct_shape (v : Obj) (o : LoadOptions) (ty : string)
    (p0 : option string) (w w' : World) (this : ReactiveFile) :
  new_ReactiveFile v (with_defaults o ty) p0 w = (Normal this, w') →
  val this = v ∧ path this = str_or (saveTo o) p0
  ∧ opts this = with_defaults o ty
  ∧ observer this
    = if default true (reactive o) then Some (default true (deep o)) else None.
Proof.
  destruct (default true (reactive o)) eqn:Hr.
  - rewrite construct_reactive by done. cbn zeta.
    destruct (default true (asyncSave o)).
    + by intros [= <- _].
    + destruct (saveSync _ w) as [[[]|e] w1]; [|discriminate]. by intros [= <- _].
  - rewrite construct_silent by done. by intros [= <- _].
Qed.

Lemma constructor_shape (o : LoadOptions) (mk : M ReactiveFile)
    (w w' : World) (this : ReactiveFile) :
  (∃ p, mk = load p o ∨ mk = loadSync p o) ∨ (∃ obj, mk = from obj o) →
  mk w = (Normal this, w') →
  (∃ ty, opts this = with_defaults o ty)
  ∧ observer this
    = if default true (reactive o) then Some (default true (deep o)) else None.
Proof.
  intros [[p Hmk]|[obj ->]] Hrun.
  - assert (mk = load p o) as -> by (destruct Hmk; by subst).
    rewrite load_unfold in Hrun.
    destruct (Fs.readFile p (disk w)) as [data|e]; [|discriminate].
    destruct (parse (types w) data (type_of (type o) p)) as [parsed|e]; [|discriminate].
    apply construct_shape in Hrun as (_ & _ & Ho & Hobs). eauto.
  - unfold from in Hrun.
    destruct (str_or (saveTo o) None) as [s|]; [|discriminate].
    apply construct_shape in Hrun as (_ & _ & Ho & Hobs). eauto.
Qed.

Lemma mutate_shape (m : Mutation) (this this' : ReactiveFile) (w w' : World)
    (r : Completion unit) :
  mutate m (this, w) = (r, (this', w')) →
  path this' = path this ∧ opts this' = opts this ∧ observer this' = observer this.
Proof.
  unfold mutate.
  destruct (update_at (target m) (change m) (val this)) as [v'|e].
  - destruct (observer this) as [dp|] eqn:Hobs; rewrite <- Hobs.
    + destruct (observes dp m).
      * destruct (notify (set_val v' this) w) as [r1 w1]. cbn. by intros [= _ <- _].
      * by intros [= _ <- _].
    + by intros [= _ <- _].
  - by intros [= _ <- _].
Qed.

(** What stays true of an instance, by induction on how the caller got
    it: its options are those of the construction with the defaults
    filled in, and it is observed if and only if [reactive] was not
    turned off. *)
Lemma bound_shape (o : LoadOptions) (this : ReactiveFile) :
  bound o this →
  (∃ ty, opts this = with_defaults o ty)
  ∧ observer this
    = if default true (reactive o) then Some (default true (deep o)) else None.
Proof.
  induction 1 as [p w this w' H|p w this w' H|obj w this w' H
                 |m this w r this' w' Hb IH Hm].
  - eapply constructor_shape; [|exact H]. left. exists p. by left.
  - eapply constructor_shape; [|exact H]. left. exists p. by right.
  - eapply constructor_shape; [|exact H]. right. by exists obj.
  - apply mutate_shape in Hm as (_ & -> & ->). exact IH.
Qed.


Example load_doc0 : load "conf/app.kv" no_options world0 = (Normal doc0, world1).
Proof. vm_compute. reflexivity. Qed.

Example settle_world1 :
  promises (settle 0 world1) = [Fulfilled]
  ∧ files (disk (settle 0 world1)) !! "conf/app.kv" = Some "count=0;".
Proof. split; vm_compute; reflexivity. Qed.


(** ** Mutations *)



Example mutation_settles :
  let w2 := (mutate {| target := []; change := assign "count" (VNum 1) |}
               (doc0, world1)).2.2 in
  promises (settle 1 w2) !! 1 = Some Fulfilled
  ∧ (x ← files (disk (settle 1 w2)) !! "conf/app.kv"; Some (KV.parse x))
    = Some (Normal (VObj [("count", VNum 1)])).
Proof. split; vm_compute; reflexivity. Qed.

(** C7: with [reactive] off, the construction saves nothing and installs
    no observer, and no mutation of the object changes the disk or
    leaves a promise: the world after the mutation is the world before
    it.  The explicit calls still save: [saveSync] writes the file and
    [save] leaves the promise that will. *)
Theorem no_save_without_reactive (o : LoadOptions) :
  reactive o = Some false →
  (∀ mk w this w',
     (∃ p, mk = load p o ∨ mk = loadSync p o) ∨ (∃ obj, mk = from obj o) →
     mk w = (Normal this, w') → w' = w)
  ∧ ∀ this,
      bound o this →
      observer this = None
      ∧ (∀ m w, (mutate m (this, w)).2.2 = w)
      ∧ ∀ w dest text pf sf d1 d2,
          path this = Some dest →
          prop (types w) (key (type (opts this))) = Some (pf, sf) →
          sf (val this) = Normal text →
          Fs.mkdir (dir (parsePath dest)) (disk w) = Normal d1 →
          Fs.writeFile dest text d1 = Normal d2 →
          saveSync this w = (Normal tt, set_disk d2 w)
          ∧ files d2 !! dest = Some text
          ∧ save this w
            = (Normal (length (promises w)),
               set_promises (promises w ++ [Pending (task_of dest text)]) w).
Proof.
  intros Hr.
  assert (Hr' : default true (reactive o) = false) by (by rewrite Hr).
  split.
  - intros mk w this w' [[p Hmk]|[obj ->]] Hrun.
    + assert (mk = load p o) as -> by (destruct Hmk; by subst).
      rewrite load_unfold in Hrun.
      destruct (Fs.readFile p (disk w)) as [data|e]; [|discriminate].
      destruct (parse (types w) data (type_of (type o) p)) as [parsed|e];
        [|discriminate].
      rewrite construct_silent in Hrun by done. by injection Hrun.
    + unfold from in Hrun.
      destruct (str_or (saveTo o) None) as [s|]; [|discriminate].
      rewrite construct_silent in Hrun by done. by injection Hrun.
  - intros this Hb.
    destruct (bound_shape o this Hb) as [_ Hobs]. rewrite Hr' in Hobs.
    split; [exact Hobs|]. split.
    + intros m w. unfold mutate. rewrite Hobs.
      by destruct (update_at (target m) (change m) (val this)).
    + intros w dest text pf sf d1 d2 Hpath Hc Hs Hm Hw.
      split; [by apply (saveSync_writes _ _ dest text pf sf d1 d2)|].
      split; [by apply writeFile_lookup in Hw|].
      unfold save. by rewrite (save_promise_pending _ _ dest text pf sf).
Qed.

Example load_doc_quiet :
  load "conf/app.kv" quiet_options world0 = (Normal doc_quiet, world0).
Proof. vm_compute. reflexivity. Qed.

Lemma no_save_without_reactive_witness :
  observer doc_quiet = None
  ∧ (mutate {| target := []; change := assign "count" (VNum 1) |}
       (doc_quiet, world0)).2.2 = world0.
Proof.
  destruct (no_save_without_reactive quiet_options eq_refl) as [_ H].
  destruct (H doc_quiet (bound_load quiet_options _ _ _ _ load_doc_quiet))
    as (H1 & H2 & _).
  split; [exact H1|apply H2].
Defined.

Example quiet_mutation_then_saveSync :
  let s1 := (mutate {| target := []; change := assign "count" (VNum 1) |}
               (doc_quiet, world0)).2 in
  s1.2 = world0
  ∧ (x ← files (disk (saveSync s1.1 s1.2).2) !! "conf/app.kv"; Some (KV.parse x))
    = Some (Normal (VObj [("count", VNum 1)])).
Proof. split; vm_compute; reflexivity. Qed.

(** * Further properties of the code *)

(** ** The registry, several types at a time *)

Lemma registerTypes_cons (t : string) (ts : list string) p s (w : World) :
  registerTypes (t :: ts) p s w = registerTypes ts p s (registerType t p s w).2.
Proof. reflexivity. Qed.

Lemma assignTypes_cons (t : string) (ts : list string) (b : string) (w : World) :
  assignTypes (t :: ts) b w = assignTypes ts b (assignType t b w).2.
Proof. reflexivity. Qed.

Lemma prop_ext (tbl tbl' : Types) (k : string) :
  tbl !! k = tbl' !! k → prop tbl k = prop tbl' k.
Proof. intros H. unfold prop. f_equal. exact H. Qed.

Lemma registerTypes_effect (ts : list string) p s (w : World) :
  (registerTypes ts p s w).1 = Normal tt
  ∧ disk (registerTypes ts p s w).2 = disk w
  ∧ promises (registerTypes ts p s w).2 = promises w
  ∧ (∀ t, t ∈ ts → prop (types (registerTypes ts p s w).2) t = Some (p, s))
  ∧ (∀ k, k ∉ ts → types (registerTypes ts p s w).2 !! k = types w !! k).
Proof.
  revert w. induction ts as [|t0 ts IH]; intros w.
  - repeat split; try reflexivity. intros t Ht. by apply elem_of_nil in Ht.
  - rewrite registerTypes_cons.
    destruct (IH (registerType t0 p s w).2) as (Hr & Hd & Hp & Hin & Hout).
    split; [exact Hr|]. split; [by rewrite Hd|]. split; [by rewrite Hp|]. split.
    + intros t Ht. destruct (decide (t ∈ ts)) as [Hts|Hts]; [by apply Hin|].
      apply elem_of_cons in Ht as [->|Ht]; [|done].
      rewrite (prop_ext _ _ _ (Hout t0 Hts)), registerType_types.
      apply prop_insert.
    + intros k Hk. apply not_elem_of_cons in Hk as [Hk0 Hk].
      rewrite (Hout k Hk), registerType_types. by rewrite lookup_insert_ne.
Qed.

Lemma assignTypes_effect (ts : list string) (b : string) (w : World) :
  (assignTypes ts b w).1 = Normal tt
  ∧ disk (assignTypes ts b w).2 = disk w
  ∧ promises (assignTypes ts b w).2 = promises w
  ∧ (∀ t, t ∈ ts → prop (types (assignTypes ts b w).2) t = prop (types w) b)
  ∧ (∀ k, k ∉ ts → types (assignTypes ts b w).2 !! k = types w !! k).
Proof.
  revert w. induction ts as [|t0 ts IH]; intros w.
  - repeat split; try reflexivity. intros t Ht. by apply elem_of_nil in Ht.
  - rewrite assignTypes_cons.
    destruct (IH (assignType t0 b w).2) as (Hr & Hd & Hp & Hin & Hout).
    assert (Hb : prop (types (assignType t0 b w).2) b = prop (types w) b).
    { rewrite assignType_types.
      destruct (decide (t0 = b)) as [->|Hne]; [apply prop_insert|].
      by apply prop_insert_ne. }
    split; [exact Hr|]. split; [by rewrite Hd|]. split; [by rewrite Hp|]. split.
    + intros t Ht. destruct (decide (t ∈ ts)) as [Hts|Hts].
      { by rewrite (Hin t Hts). }
      apply elem_of_cons in Ht as [->|Ht]; [|done].
      rewrite (prop_ext _ _ _ (Hout t0 Hts)), assignType_types.
      apply prop_insert.
    + intros k Hk. apply not_elem_of_cons in Hk as [Hk0 Hk].
      rewrite (Hout k Hk), assignType_types. by rewrite lookup_insert_ne.
Qed.

(** X1: [registerTypes] returns without an error and registers the pair
    under every type of its list, be the list empty or with repeats:
    each of them then parses with [p] and serializes with [s].  The
    types outside the list keep what they had, and the disk and the
    promises are not touched. *)
Theorem registerTypes_registers_all (ts : list string) (p : ParseFunction)
    (s : SerializeFunction) (w : World) :
  (registerTypes ts p s w).1 = Normal tt
  ∧ disk (registerTypes ts p s w).2 = disk w
  ∧ promises (registerTypes ts p s w).2 = promises w
  ∧ (∀ t, t ∈ ts →
       ∀ str obj,
         parse (types (registerTypes ts p s w).2) str t = p str
         ∧ serialize (types (registerTypes ts p s w).2) obj t = s obj)
  ∧ (∀ k, k ∉ ts → types (registerTypes ts p s w).2 !! k = types w !! k).
Proof.
  destruct (registerTypes_effect ts p s w) as (Hr & Hd & Hp & Hin & Hout).
  do 3 (split; [assumption|]). split; [|assumption].
  intros t Ht str obj. specialize (Hin t Ht).
  split; [by apply (parse_registered _ _ p s)|by apply (serialize_registered _ _ p s)].
Qed.

Lemma registerTypes_registers_all_witness :
  parse (types (registerTypes ["ini"; "env"; "ini"] KV.parse KV.stringify world0).2)
    "a=1;" "env"
  = Normal (VObj [("a", VNum 1)])
  ∧ types (registerTypes ["ini"; "env"; "ini"] KV.parse KV.stringify world0).2 !! "toml"
    = types world0 !! "toml".
Proof.
  destruct (registerTypes_registers_all ["ini"; "env"; "ini"] KV.parse KV.stringify
              world0) as (_ & _ & _ & Hin & Hout).
  assert (Hmem : "env" ∈ ["ini"; "env"; "ini"]).
  { apply elem_of_cons. right. apply elem_of_cons. by left. }
  split.
  - destruct (Hin "env" Hmem "a=1;" (VObj [])) as [Hp _].
    rewrite Hp. vm_compute. reflexivity.
  - apply Hout. intros H. by repeat (apply elem_of_cons in H as [H|H]; [discriminate|]);
      apply elem_of_nil in H.
Defined.

(** X2: [assignTypes] returns without an error and gives every type of
    its list the entry that [from] had when the call began, also when
    [from] is itself in the list; the types outside the list keep what
    they had. *)
Theorem assignTypes_copies_all (ts : list string) (b : string) (w : World) :
  (assignTypes ts b w).1 = Normal tt
  ∧ disk (assignTypes ts b w).2 = disk w
  ∧ promises (assignTypes ts b w).2 = promises w
  ∧ (∀ t, t ∈ ts →
       ∀ str obj,
         parse (types (assignTypes ts b w).2) str t = parse (types w) str b
         ∧ serialize (types (assignTypes ts b w).2) obj t = serialize (types w) obj b)
  ∧ (∀ k, k ∉ ts → types (assignTypes ts b w).2 !! k = types w !! k).
Proof.
  destruct (assignTypes_effect ts b w) as (Hr & Hd & Hp & Hin & Hout).
  do 3 (split; [assumption|]). split; [|assumption].
  intros t Ht str obj. specialize (Hin t Ht).
  unfold parse, serialize. by rewrite Hin.
Qed.

Lemma assignTypes_copies_all_witness :
  parse (types (assignTypes ["ini"; "kv"; "env"] "kv" world0).2) "a=1;" "env"
  = parse (types world0) "a=1;" "kv".
Proof.
  destruct (assignTypes_copies_all ["ini"; "kv"; "env"] "kv" world0)
    as (_ & _ & _ & Hin & _).
  assert (Hmem : "env" ∈ ["ini"; "kv"; "env"]).
  { do 2 (apply elem_of_cons; right). apply elem_of_cons. by left. }
  destruct (Hin "env" Hmem "a=1;" (VObj [])) as [Hp _]. exact Hp.
Defined.

(** X3: [assignType] copies, it does not link: when [b] is registered
    anew after [assignType(a, b)], with [a] another type, [a] still has
    the entry [b] had at the time of the copy, and [b] has the new
    one. *)
Theorem alias_is_a_copy (a b : string) (p : ParseFunction)
    (s : SerializeFunction) (w : World) :
  a ≠ b →
  let w' := (registerType b p s (assignType a b w).2).2 in
  (∀ str, parse (types w') str a = parse (types w) str b)
  ∧ (∀ obj, serialize (types w') obj a = serialize (types w) obj b)
  ∧ (∀ str, parse (types w') str b = p str)
  ∧ (∀ obj, serialize (types w') obj b = s obj).
Proof.
  intros Hne w'. subst w'. rewrite registerType_types, assignType_types.
  assert (Ha : prop (<[b := Some (p, s)]> (<[a := prop (types w) b]> (types w))) a
               = prop (types w) b).
  { rewrite prop_insert_ne by done. apply prop_insert. }
  assert (Hb : prop (<[b := Some (p, s)]> (<[a := prop (types w) b]> (types w))) b
               = Some (p, s)) by apply prop_insert.
  repeat split; intros x; unfold parse, serialize; by rewrite ?Ha, ?Hb.
Qed.

Lemma alias_is_a_copy_witness :
  serialize
    (types (registerType "kv" KV.parse headed_stringify
              (assignType "ini" "kv" world0).2).2)
    (VObj [("a", VNum 1)]) "ini"
  = Normal "a=1;"
  ∧ serialize
      (types (registerType "kv" KV.parse headed_stringify
                (assignType "ini" "kv" world0).2).2)
      (VObj [("a", VNum 1)]) "kv"
    = Normal "v=2;a=1;".
Proof.
  destruct (alias_is_a_copy "ini" "kv" KV.parse headed_stringify world0)
    as (_ & Hs & _ & Hs'); [discriminate|].
  split; [rewrite Hs|rewrite Hs']; vm_compute; reflexivity.
Defined.

Lemma module_init_types_eq (lib : Libraries) (w : World) :
  types (module_init lib w).2
  = <["xaml" := Some (xml_parse lib, xml_j2x lib)]>
      (<["xml" := Some (xml_parse lib, xml_j2x lib)]>
         (<["toml" := Some (toml_parse lib, toml_stringify lib)]>
            (<["yaml" := Some (yml_safeLoad lib, yml_safeDump lib)]>
               (<["yml" := Some (yml_safeLoad lib, yml_safeDump lib)]>
                  (<["json" := Some (JSON_parse lib, JSON_stringify lib)]>
                     (types w)))))).
Proof. reflexivity. Qed.

(** X4: loading the module registers six types whatever the table held:
    [json], [toml], and [yml] with its twin [yaml] and [xml] with its
    twin [xaml], each twin with the very functions of its sibling.  No
    other type is registered or changed, and the disk is not touched. *)
Theorem module_init_formats (lib : Libraries) (w : World) :
  (module_init lib w).1 = Normal tt
  ∧ disk (module_init lib w).2 = disk w
  ∧ promises (module_init lib w).2 = promises w
  ∧ prop (types (module_init lib w).2) "json" = Some (JSON_parse lib, JSON_stringify lib)
  ∧ prop (types (module_init lib w).2) "yml" = Some (yml_safeLoad lib, yml_safeDump lib)
  ∧ prop (types (module_init lib w).2) "yaml" = Some (yml_safeLoad lib, yml_safeDump lib)
  ∧ prop (types (module_init lib w).2) "toml" = Some (toml_parse lib, toml_stringify lib)
  ∧ prop (types (module_init lib w).2) "xml" = Some (xml_parse lib, xml_j2x lib)
  ∧ prop (types (module_init lib w).2) "xaml" = Some (xml_parse lib, xml_j2x lib)
  ∧ ∀ k, k ∉ ["json"; "yml"; "yaml"; "toml"; "xml"; "xaml"] →
         types (module_init lib w).2 !! k = types w !! k.
Proof.
  do 3 (split; [reflexivity|]). rewrite module_init_types_eq.
  repeat (split; [by rewrite ?prop_insert_ne by done; rewrite prop_insert|]).
  intros k Hk. rewrite !not_elem_of_cons in Hk.
  destruct Hk as (? & ? & ? & ? & ? & ? & _).
  by rewrite !lookup_insert_ne by done.
Qed.

Lemma module_init_formats_witness :
  types (module_init kv_lib world0).2 !! "kv" = types world0 !! "kv".
Proof.
  destruct (module_init_formats kv_lib world0) as (_ & _ & _ & _ & _ & _ & _ & _ & _ & H).
  apply H. intros Hin.
  by repeat (apply elem_of_cons in Hin as [Hin|Hin]; [discriminate|]);
    apply elem_of_nil in Hin.
Defined.

(** ** What a save touches *)

Lemma mkdir_files (p : string) (d d1 : Disk) :
  Fs.mkdir p d = Normal d1 → files d1 = files d.
Proof.
  unfold Fs.mkdir. repeat case_decide; try discriminate. by intros [= <-].
Qed.

Lemma writeFile_files (p data : string) (d d2 : Disk) :
  Fs.writeFile p data d = Normal d2 → files d2 = <[p := data]> (files d).
Proof.
  unfold Fs.writeFile. repeat case_decide; try discriminate. by intros [= <-].
Qed.


Lemma saveSync_effect (this : ReactiveFile) (w : World) :
  types (saveSync this w).2 = types w
  ∧ promises (saveSync this w).2 = promises w
  ∧ (∀ q, path this ≠ Some q →
          files (disk (saveSync this w).2) !! q = files (disk w) !! q)
  ∧ ((saveSync this w).1 ≠ Normal tt →
     files (disk (saveSync this w).2) = files (disk w))
  ∧ ((saveSync this w).1 = Normal tt →
     ∃ dest text,
       path this = Some dest
       ∧ serialize (types w) (val this) (key (type (opts this))) = Normal text
       ∧ files (disk (saveSync this w).2) = <[dest := text]> (files (disk w))).
Proof.
  assert (Hthrow : ∀ (e : JsError) (w1 : World),
            types w1 = types w → promises w1 = promises w →
            files (disk w1) = files (disk w) →
            types w1 = types w
            ∧ promises w1 = promises w
            ∧ (∀ q, path this ≠ Some q → files (disk w1) !! q = files (disk w) !! q)
            ∧ ((Throw e : Completion unit) ≠ Normal tt →
               files (disk w1) = files (disk w))
            ∧ ((Throw e : Completion unit) = Normal tt →
               ∃ dest text,
                 path this = Some dest
                 ∧ serialize (types w) (val this) (key (type (opts this)))
                   = Normal text
                 ∧ files (disk w1) = <[dest := text]> (files (disk w)))).
  { intros e w1 Ht Hp Hf. do 2 (split; [assumption|]).
    split; [intros q _; by rewrite Hf|]. split; [done|]. discriminate. }
  unfold saveSync.
  destruct (serialize _ _ _) as [text|e] eqn:Hs; [|by apply Hthrow].
  destruct (path this) as [dest|] eqn:Hp; [|by apply Hthrow].
  destruct (Fs.mkdir _ _) as [d1|e] eqn:Hm; [|by apply Hthrow].
  apply mkdir_files in Hm.
  destruct (Fs.writeFile _ _ _) as [d2|e] eqn:Hw; [|by apply Hthrow].
  apply writeFile_files in Hw. cbn. rewrite Hw, Hm.
  do 2 (split; [reflexivity|]). split; [|split].
  - intros q Hq. apply lookup_insert_ne. congruence.
  - done.
  - intros _. by exists dest, text.
Qed.


Lemma settle_other (i j : nat) (w : World) :
  j ≠ i → promises (settle i w) !! j = promises w !! j.
Proof.
  intros Hne. unfold settle.
  destruct (promises w !! i) as [[t| |e]|]; try reflexivity.
  destruct (Fs.mkdir _ _) as [d1|e]; cbn.
  - destruct (Fs.writeFile _ _ _) as [d2|e]; cbn; by rewrite list_lookup_insert_ne.
  - by rewrite list_lookup_insert_ne.
Qed.

Lemma settle_settled (i : nat) (w : World) (t : Task) :
  promises w !! i = Some (Pending t) →
  ∀ t', promises (settle i w) !! i ≠ Some (Pending t').
Proof.
  intros Hi t'. destruct (settle_fulfilled i w t Hi) as [[H|[e H]] _];
    rewrite H; discriminate.
Qed.

(** X6: when a save is resumed, its promise is the only one to change,
    the file of its task the only one that can change, and the table is
    left alone.  A promise that is not pending has nothing to resume,
    so that no save ever runs twice: resuming again changes nothing. *)
Theorem resumed_save_frame (i : nat) (w : World) :
  types (settle i w) = types w
  ∧ length (promises (settle i w)) = length (promises w)
  ∧ (∀ j, j ≠ i → promises (settle i w) !! j = promises w !! j)
  ∧ (∀ t, promises w !! i = Some (Pending t) →
          ∀ q, q ≠ t_path t → files (disk (settle i w)) !! q = files (disk w) !! q)
  ∧ ((∀ t, promises w !! i ≠ Some (Pending t)) → settle i w = w)
  ∧ settle i (settle i w) = settle i w.
Proof.
  split; [|split; [|split; [|split; [|split]]]].
  - unfold settle. destruct (promises w !! i) as [[t| |e]|]; try reflexivity.
    destruct (Fs.mkdir _ _); [destruct (Fs.writeFile _ _ _)|]; reflexivity.
  - unfold settle. destruct (promises w !! i) as [[t| |e]|]; try reflexivity.
    destruct (Fs.mkdir _ _); [destruct (Fs.writeFile _ _ _)|]; cbn;
      apply length_insert.
  - intros j Hj. by apply settle_other.
  - intros t Hi q Hq. unfold settle. rewrite Hi.
    destruct (Fs.mkdir _ _) as [d1|e] eqn:Hm; [|reflexivity].
    apply mkdir_files in Hm.
    destruct (Fs.writeFile _ _ _) as [d2|e] eqn:Hw; cbn; [|by rewrite Hm].
    apply writeFile_files in Hw. rewrite Hw, Hm. by apply lookup_insert_ne.
  - apply settle_not_pending.
  - destruct (promises w !! i) as [[t| |e]|] eqn:Hi.
    + apply settle_not_pending. by apply (settle_settled i w t).
    + assert (H : settle i w = w)
        by (apply settle_not_pending; intros t; by rewrite Hi).
      by rewrite !H.
    + assert (H : settle i w = w)
        by (apply settle_not_pending; intros t; by rewrite Hi).
      by rewrite !H.
    + assert (H : settle i w = w)
        by (apply settle_not_pending; intros t; by rewrite Hi).
      by rewrite !H.
Qed.

Lemma resumed_save_frame_witness :
  files (disk (settle 0 world2)) !! "conf/other.kv" = files (disk world2) !! "conf/other.kv"
  ∧ promises (settle 0 world2) !! 1 = promises world2 !! 1.
Proof.
  destruct (resumed_save_frame 0 world2) as (_ & _ & Hp & Hf & _).
  split; [|by apply Hp].
  apply (Hf (task_of "conf/app.kv" "count=1;")); [reflexivity|discriminate].
Defined.

(** X7: of two saves pending at once on one path, the one resumed last
    decides what the file holds, whichever was issued first: a save
    writes the text it serialized when it was called. *)
Theorem last_resumed_save_wins (w : World) (i j : nat) (ti tj : Task) :
  i ≠ j →
  promises w !! i = Some (Pending ti) →
  promises w !! j = Some (Pending tj) →
  t_path ti = t_path tj →
  promises (settle j (settle i w)) !! j = Some Fulfilled →
  files (disk (settle j (settle i w))) !! t_path ti = Some (t_data tj).
Proof.
  intros Hne Hi Hj Hpath Hdone. rewrite Hpath.
  assert (Hj' : promises (settle i w) !! j = Some (Pending tj)).
  { rewrite settle_other by done. exact Hj. }
  by apply (settle_fulfilled j (settle i w) tj Hj').
Qed.

Lemma last_resumed_save_wins_witness :
  files (disk (settle 0 (settle 1 world2))) !! "conf/app.kv" = Some "count=1;".
Proof.
  apply (last_resumed_save_wins world2 1 0
           (task_of "conf/app.kv" "count=2;") (task_of "conf/app.kv" "count=1;")).
  - discriminate.
  - reflexivity.
  - reflexivity.
  - reflexivity.
  - vm_compute. reflexivity.
Defined.

(** X8: with [asyncSave] on, [notify] never throws and writes nothing
    during the call: it leaves one more promise.  If serializing throws,
    the error is only in that promise, rejected, which has nothing to
    resume. *)
Theorem notify_nonblocking_never_throws (this : ReactiveFile) (w : World) :
  truthy (asyncSave (opts this)) = true →
  (notify this w).1 = Normal tt
  ∧ disk (notify this w).2 = disk w
  ∧ types (notify this w).2 = types w
  ∧ length (promises (notify this w).2) = S (length (promises w))
  ∧ (∀ j, j < length (promises w) →
          promises (notify this w).2 !! j = promises w !! j)
  ∧ ∀ e, serialize (types w) (val this) (key (type (opts this))) = Throw e →
         promises (notify this w).2 !! length (promises w) = Some (Rejected e)
         ∧ settle (length (promises w)) (notify this w).2 = (notify this w).2.
Proof.
  intros Ha. unfold notify. rewrite Ha. unfold mbind, M_bind. cbn.
  do 3 (split; [reflexivity|]).
  split; [rewrite length_app; cbn; lia|].
  split; [intros j Hj; by rewrite lookup_app_l|].
  intros e He.
  assert (Hl : (promises w ++ [save_promise this (types w)]) !! length (promises w)
               = Some (Rejected e)).
  { rewrite lookup_app_r by lia. rewrite Nat.sub_diag. cbn.
    unfold save_promise. by rewrite He. }
  split; [exact Hl|].
  apply settle_not_pending. intros t. cbn. rewrite Hl. discriminate.
Qed.

Lemma notify_nonblocking_never_throws_witness :
  (notify doc0 world1).1 = Normal tt ∧ disk (notify doc0 world1).2 = disk world1.
Proof.
  destruct (notify_nonblocking_never_throws doc0 world1 eq_refl) as (H1 & H2 & _).
  split; [exact H1|exact H2].
Defined.

(** ** Loading *)

Lemma construct_types (v : Obj) (o : LoadOptions) (ty : string)
    (p0 : option string) (w : World) :
  types (new_ReactiveFile v (with_defaults o ty) p0 w).2 = types w.
Proof.
  destruct (default true (reactive o)) eqn:Hr.
  - rewrite construct_reactive by done. cbn zeta.
    destruct (default true (asyncSave o)); [reflexivity|].
    destruct (saveSync_effect (observed_instance v o ty p0) w) as (Ht & _).
    by destruct (saveSync _ w) as [[[]|e] w1].
  - by rewrite construct_silent.
Qed.

(** X9: [load] and [loadSync] of a file that is not there throw the
    error of the read, and those of a file its codec rejects throw what
    the codec threw.  In both cases no instance is made and nothing has
    changed: the file is as it was and no save was issued. *)
Theorem load_failure_changes_nothing (p : string) (o : LoadOptions) (w : World)
    (mk : M ReactiveFile) :
  mk = load p o ∨ mk = loadSync p o →
  (files (disk w) !! p = None → mk w = (Throw (SystemError "ENOENT" p), w))
  ∧ (∀ data e,
       files (disk w) !! p = Some data →
       parse (types w) data (type_of (type o) p) = Throw e →
       mk w = (Throw e, w)).
Proof.
  intros Hmk. assert (mk = load p o) as -> by (destruct Hmk; by subst).
  split.
  - intros Hf. rewrite load_unfold. unfold Fs.readFile. by rewrite Hf.
  - intros data e Hf Hparse. rewrite load_unfold. unfold Fs.readFile.
    by rewrite Hf, Hparse.
Qed.

Lemma load_failure_changes_nothing_witness :
  load "conf/missing.kv" no_options world0
  = (Throw (SystemError "ENOENT" "conf/missing.kv"), world0)
  ∧ loadSync "conf/app.kv"
      {| encoding := None; asyncSave := None; saveTo := None; deep := None;
         reactive := None; type := Some "kv" |}
      (set_disk {| files := {[ "conf/app.kv" := "count" ]}; dirs := ∅ |} world0)
    = (Throw (Error_ "kv: bad line"),
       set_disk {| files := {[ "conf/app.kv" := "count" ]}; dirs := ∅ |} world0).
Proof.
  split.
  - destruct (load_failure_changes_nothing "conf/missing.kv" no_options world0 _
                (or_introl eq_refl)) as [H _].
    apply H. reflexivity.
  - destruct (load_failure_changes_nothing "conf/app.kv"
                {| encoding := None; asyncSave := None; saveTo := None; deep := None;
                   reactive := None; type := Some "kv" |}
                (set_disk {| files := {[ "conf/app.kv" := "count" ]}; dirs := ∅ |} world0)
                _ (or_intror eq_refl)) as [_ H].
    apply (H "count"); vm_compute; reflexivity.
Defined.

(** X10: when [load] or [loadSync] returns an instance, its object is
    what the codec of the format parsed from the text of the file, the
    format being the given type or else the extension; the instance
    keeps that format for its saves, and its path is [saveTo] or else
    the path loaded.  The table is as before. *)
Theorem load_returns_decoded_file (p : string) (o : LoadOptions) (w w' : World)
    (mk : M ReactiveFile) (this : ReactiveFile) :
  mk = load p o ∨ mk = loadSync p o →
  mk w = (Normal this, w') →
  (∃ data, files (disk w) !! p = Some data
           ∧ parse (types w) data (type_of (type o) p) = Normal (val this))
  ∧ type (opts this) = Some (type_of (type o) p)
  ∧ path this = str_or (saveTo o) (Some p)
  ∧ types w' = types w.
Proof.
  intros Hmk Hrun. assert (mk = load p o) as -> by (destruct Hmk; by subst).
  rewrite load_unfold in Hrun. unfold Fs.readFile in Hrun.
  destruct (files (disk w) !! p) as [data|] eqn:Hf; [|discriminate].
  destruct (parse (types w) data (type_of (type o) p)) as [parsed|e] eqn:Hp;
    [|discriminate].
  pose proof (construct_types parsed o (type_of (type o) p) (Some p) w) as Ht.
  rewrite Hrun in Ht. cbn in Ht.
  apply construct_shape in Hrun as (Hv & Hpath & Ho & _).
  split; [exists data; by rewrite Hv|].
  split; [by rewrite Ho|]. split; [exact Hpath|exact Ht].
Qed.

Lemma load_returns_decoded_file_witness :
  (∃ data, files (disk world0) !! "conf/app.kv" = Some data
           ∧ parse (types world0) data (type_of (type no_options) "conf/app.kv")
             = Normal (val doc0))
  ∧ type (opts doc0) = Some (type_of (type no_options) "conf/app.kv")
  ∧ path doc0 = str_or (saveTo no_options) (Some "conf/app.kv")
  ∧ types world1 = types world0.
Proof.
  exact (load_returns_decoded_file "conf/app.kv" no_options world0 world1 _ doc0
           (or_introl eq_refl) load_doc0).
Defined.



(** ** The inferred format, for every path *)

Lemma forallb_take_while {A} (f g : A → bool) (l : list A) :
  forallb g l = true → forallb g (take_while f l) = true.
Proof.
  induction l as [|x l IH]; [done|]. cbn. intros H.
  apply andb_prop in H as [Hx Hl]. destruct (f x); [|done].
  cbn. by rewrite Hx, IH.
Qed.

Lemma take_while_forallb {A} (f : A → bool) (l : list A) :
  forallb f (take_while f l) = true.
Proof.
  induction l as [|x l IH]; [done|]. cbn.
  destruct (f x) eqn:Hx; [|done]. cbn. by rewrite Hx, IH.
Qed.

Lemma ext_of_tail (rb : list ascii) :
  forallb not_sep rb = true →
  forallb not_dot (tail (ext_of rb)) = true
  ∧ forallb not_sep (tail (ext_of rb)) = true.
Proof.
  intros Hrb. unfold ext_of.
  pose proof (take_while_forallb not_dot rb) as Hd.
  pose proof (forallb_take_while not_dot not_sep rb Hrb) as Hs.
  destruct (drop_while not_dot rb) as [|x [|y [|z r]]];
    destruct (take_while not_dot rb) as [|a l]; cbn [tail]; try done;
    try (destruct (is_dot y); done);
    by rewrite !forallb_rev.
Qed.

Lemma slice1_chars (l : list ascii) :
  slice1 (string_of_list_ascii l) = string_of_list_ascii (tail l).
Proof. by destruct l. Qed.

Lemma contains_chars (c : ascii) (l : list ascii) :
  forallb (fun x => negb (Ascii.eqb x c)) l = true →
  contains c (string_of_list_ascii l) = false.
Proof.
  unfold contains. rewrite list_ascii_of_string_of_list_ascii.
  induction l as [|x l IH]; [done|]. cbn. intros H.
  apply andb_prop in H as [Hx Hl]. apply negb_true_iff in Hx.
  by rewrite Ascii.eqb_sym, Hx, IH.
Qed.

(** X12: whatever the path, the format inferred from it holds no dot and
    no separator: it is a bare name of the kind the registry is keyed
    by, or the empty string. *)
Theorem inferred_type_has_no_dot (ty : option string) (p : string) :
  ty = None ∨ ty = Some "" →
  contains "." (type_of ty p) = false ∧ contains "/" (type_of ty p) = false.
Proof.
  intros Hty. rewrite type_of_inferred by done.
  unfold parsePath. cbn [ext]. rewrite slice1_chars.
  match goal with
  | |- context [ext_of ?rb] =>
      assert (Hrb : forallb not_sep rb = true) by apply take_while_forallb;
      destruct (ext_of_tail rb Hrb) as [Hd Hs]
  end.
  split; by apply contains_chars.
Qed.

Lemma inferred_type_has_no_dot_witness :
  contains "." (type_of None "/srv/app.d/conf.local.JSON//") = false
  ∧ contains "/" (type_of None "/srv/app.d/conf.local.JSON//") = false.
Proof.
  apply (inferred_type_has_no_dot None "/srv/app.d/conf.local.JSON//").
  left. reflexivity.
Defined.

(** ** Construction, at its edges *)






(** X15: the codec of a save is the one registered when the save is
    made, not the one that parsed the file: after [registerType] for the
    format of an instance, [saveSync] writes what the new function
    serializes. *)
Theorem codec_is_looked_up_at_save_time (this : ReactiveFile) (w : World)
    (p : ParseFunction) (s : SerializeFunction) (dest text : string)
    (d1 d2 : Disk) :
  path this = Some dest →
  s (val this) = Normal text →
  Fs.mkdir (dir (parsePath dest)) (disk w) = Normal d1 →
  Fs.writeFile dest text d1 = Normal d2 →
  let w1 := (registerType (key (type (opts this))) p s w).2 in
  saveSync this w1 = (Normal tt, set_disk d2 w1)
  ∧ files d2 !! dest = Some text.
Proof.
  intros Hpath Hs Hm Hw w1.
  split; [|by apply writeFile_lookup in Hw].
  apply (saveSync_writes this w1 dest text p s d1 d2); try done.
  subst w1. rewrite registerType_types. apply prop_insert.
Qed.

Lemma codec_is_looked_up_at_save_time_witness :
  files (disk (saveSync doc0 (registerType "kv" KV.parse headed_stringify world0).2).2)
    !! "conf/app.kv"
  = Some "v=2;count=0;".
Proof.
  destruct (codec_is_looked_up_at_save_time doc0 world0 KV.parse headed_stringify
              "conf/app.kv" "v=2;count=0;"
              {| files := files (disk world0); dirs := {["conf"]} ∪ dirs (disk world0) |}
              {| files := <["conf/app.kv" := "v=2;count=0;"]> (files (disk world0));
                 dirs := {["conf"]} ∪ dirs (disk world0) |})
    as [Hsave Hfile].
  - reflexivity.
  - vm_compute. reflexivity.
  - reflexivity.
  - reflexivity.
  - cbv zeta in Hsave. change (key (type (opts doc0))) with "kv" in Hsave.
    rewrite Hsave. exact Hfile.
Defined.


(** X16: an instance without a path, which the constructor makes when it
    is given neither [saveTo] nor a path, can never write: [saveSync]
    throws, after serializing, and [save] returns a rejected promise;
    the world is as before. *)
Theorem pathless_instance_never_writes (this : ReactiveFile) (w : World) :
  path this = None →
  (∃ e, saveSync this w = (Throw e, w))
  ∧ (∃ e, save_promise this (types w) = Rejected e)
  ∧ ∀ v o, str_or (saveTo o) None = None → reactive o = None →
           ∃ that, new_ReactiveFile v o None w = (Normal that, w)
                   ∧ path that = None ∧ observer that = None.
Proof.
  intros Hp. split; [|split].
  - unfold saveSync. rewrite Hp. destruct (serialize _ _ _); by eexists.
  - unfold save_promise. rewrite Hp. destruct (serialize _ _ _); by eexists.
  - intros v o Hs Hr. unfold new_ReactiveFile, react. cbn. rewrite Hr, Hs. cbn.
    by eexists.
Qed.

Lemma pathless_instance_never_writes_witness :
  ∃ e, saveSync {| val := VObj []; path := None;
                   opts := with_defaults no_options "kv"; observer := None |} world0
       = (Throw e, world0).
Proof.
  destruct (pathless_instance_never_writes
              {| val := VObj []; path := None;
                 opts := with_defaults no_options "kv"; observer := None |}
              world0 eq_refl) as [H _].
  exact H.
Defined.

(** X17: the defaults are those of the static constructors, not of the
    class.  Called with options that leave [reactive] out, the
    constructor observes nothing and saves nothing, where [from] with
    the same options is reactive; and with [reactive] on and [asyncSave]
    left out, the constructor saves with the blocking [saveSync]. *)
Theorem constructor_has_no_defaults (v : Obj) (o : LoadOptions)
    (p0 : option string) (w : World) :
  asyncSave o = None →
  (reactive o = None →
   new_ReactiveFile v o p0 w
   = (Normal {| val := v; path := str_or (saveTo o) p0; opts := o; observer := None |},
      w))
  ∧ (reactive o = Some true →
     (new_ReactiveFile v o p0 w).2
     = (saveSync {| val := v; path := str_or (saveTo o) p0; opts := o;
                    observer := None |} w).2
     ∧ promises (new_ReactiveFile v o p0 w).2 = promises w)
  ∧ (reactive o = None →
     ∀ s this w', str_or (saveTo o) None = Some s →
       from v o w = (Normal this, w') →
       promises w' = promises w ++ [save_promise this (types w)]).
Proof.
  intros Ha. split; [|split].
  - intros Hr. unfold new_ReactiveFile, react. cbn. by rewrite Hr.
  - intros Hr. unfold new_ReactiveFile, react. cbn. rewrite Hr. cbn.
    unfold notify, mbind, M_bind. cbn. rewrite Ha. cbn.
    set (this := {| val := v; path := str_or (saveTo o) p0; opts := o;
                    observer := None |}).
    assert (Hsame : saveSync (observeData this (deep o)) w = saveSync this w)
      by reflexivity.
    rewrite Hsame.
    destruct (saveSync_effect this w) as (_ & Hp & _).
    destruct (saveSync this w) as [[[]|e] w1]; by split.
  - intros Hr s this w' Hs Hrun.
    rewrite (from_unfold v o s Hs), construct_reactive in Hrun by (by rewrite Hr).
    cbn zeta in Hrun. rewrite Ha in Hrun. cbn in Hrun.
    by injection Hrun as <- <-.
Qed.

Lemma constructor_has_no_defaults_witness :
  new_ReactiveFile (VObj [("count", VNum 0)]) no_options (Some "conf/app.kv") world0
  = (Normal {| val := VObj [("count", VNum 0)]; path := Some "conf/app.kv";
               opts := no_options; observer := None |}, world0).
Proof.
  destruct (constructor_has_no_defaults (VObj [("count", VNum 0)]) no_options
              (Some "conf/app.kv") world0 eq_refl) as [H _].
  apply H. reflexivity.
Defined.
